(** * The data reshaping pipeline of the dashboard (src/App.jsx)

    A shallow embedding of the [App] component: the JavaScript values it
    handles, the property assignment that builds a pivoted row, the
    insertion-ordered [Set] behind the distinct item and group lists, the
    filter / partition / group discovery / pivot stages of the render body,
    and the state changes of the initial data load. *)

From Stdlib Require Import Floats.
From stdpp Require Import gmap strings list.

Set Warnings "-register-all,-inexact-float".

Open Scope string_scope.

(** ** JavaScript values

    What [JSON.parse] yields, plus [undefined] for a field that is absent.
    Numbers are IEEE doubles. *)

Inductive value : Type :=
  | VUndefined
  | VNull
  | VBool (b : bool)
  | VNum (x : float)
  | VStr (s : string)
  | VArr (elems : list value)
  | VObj (fields : list (string * value)).

(** ToBoolean: [undefined], [null], [false], [0], [-0], [NaN] and [""] are
    falsy; every array and object is truthy. *)
Definition truthy (v : value) : bool :=
  match v with
  | VUndefined | VNull => false
  | VBool b => b
  | VNum x => negb (PrimFloat.is_zero x || PrimFloat.is_nan x)
  | VStr s => negb (bool_decide (s = ""))
  | VArr _ | VObj _ => true
  end.

(** [a || b] *)
Definition js_or (a b : value) : value := if truthy a then a else b.

(** ** Objects with dynamically keyed properties

    A row is an ordinary object: its own properties, and its prototype,
    which starts as [Object.prototype] and which only an assignment to
    ["__proto__"] can change. *)

Inductive prototype : Type :=
  | ObjectPrototype
  | NullPrototype
  | ValuePrototype (v : value).

Record object : Type := Object {
  own : gmap string value;
  proto : prototype
}.

(** Does a lookup of ["__proto__"] along the prototype chain end at the
    accessor of [Object.prototype]?  A parsed object keeps ["__proto__"] as an
    own data property when its JSON text had that key. *)
Definition inheritsProtoAccessor (p : prototype) : bool :=
  match p with
  | ObjectPrototype => true
  | NullPrototype => false
  | ValuePrototype (VObj fields) => bool_decide ("__proto__" ∉ fields.*1)
  | ValuePrototype _ => true
  end.

(** [o[k] = v] on an ordinary extensible object.  Every property that [o]
    can inherit here is a writable data property, so the assignment creates
    or updates an own property, except for the ["__proto__"] accessor: its
    setter replaces the prototype when [v] is an object or [null] and does
    nothing otherwise. *)
Definition assign (o : object) (k : string) (v : value) : object :=
  if decide (k = "__proto__" ∧ own o !! k = None
             ∧ inheritsProtoAccessor (proto o) = true)
  then match v with
       | VNull => Object (own o) NullPrototype
       | VArr _ | VObj _ => Object (own o) (ValuePrototype v)
       | _ => o
       end
  else Object (<[k := v]> (own o)) (proto o).

(** ** [new Set(iterable)] and [[...set]]

    Elements are added one at a time; adding an element that is already
    there changes nothing; iteration follows insertion order. *)
Section JsSet.
Context {A : Type} `{EqDecision A}.

Definition Set_add (s : list A) (x : A) : list A :=
  if decide (x ∈ s) then s else s ++ [x].

Definition new_Set (xs : list A) : list A := foldl Set_add [] xs.

Definition spread (s : list A) : list A := s.
End JsSet.

(** ** Data model

    One parsed element of [summaries.json].  The three fields the code
    compares or uses as property keys ([item], [demographic], [group]) are
    strings; the label and the statistics are carried as parsed, whatever
    they are, [VUndefined] when the field is missing. *)

Record SummaryRecord : Type := {
  item : string;
  item_label : value;
  demographic : string;
  group : string;
  mean : value;
  sd : value;
  n : value;
  ci_lower : value;
  ci_upper : value
}.

(** The parsed [metadata.json]: [score_types.items] and
    [score_types.scales] are arrays of item keys. *)
Record ScoreTypes : Type := {
  items : list string;
  scales : list string
}.

Record Metadata : Type := {
  sample_size : value;
  demographics : list string;
  score_types : ScoreTypes
}.

(** ** The render body, lines 71-106 *)

(** [summaries.filter(d => d.demographic === selectedDemographic)] *)
Definition filteredData (summaries : list SummaryRecord)
    (selectedDemographic : string) : list SummaryRecord :=
  filter (λ d, demographic d = selectedDemographic) summaries.

(** [filteredData.filter(d => metadata.score_types.items.includes(d.item))] *)
Definition itemData (filtered : list SummaryRecord) (metadata : Metadata)
    : list SummaryRecord :=
  filter (λ d, item d ∈ items (score_types metadata)) filtered.

Definition scaleData (filtered : list SummaryRecord) (metadata : Metadata)
    : list SummaryRecord :=
  filter (λ d, item d ∈ scales (score_types metadata)) filtered.

(** [[...new Set(filteredData.map(d => d.group))]] *)
Definition groups (filtered : list SummaryRecord) : list string :=
  spread (new_Set (group <$> filtered)).

(** The body of [itemRows.forEach]: four assignments, in source order. *)
Definition writeGroup (row : object) (r : SummaryRecord) : object :=
  let row := assign row (group r) (mean r) in
  let row := assign row (group r +:+ "_ci") (VArr [ci_lower r; ci_upper r]) in
  let row := assign row (group r +:+ "_n") (n r) in
  assign row (group r +:+ "_sd") (sd r).

(** [itemRows[0]?.item_label] *)
Definition firstLabel (itemRows : list SummaryRecord) : value :=
  match itemRows !! 0 with
  | Some r => item_label r
  | None => VUndefined
  end.

(** The arrow function mapped over [items] in [prepareChartData]. *)
Definition pivotRow (data : list SummaryRecord) (it : string) : object :=
  let itemRows := filter (λ d, item d = it) data in
  let row :=
    Object (<["label" := js_or (firstLabel itemRows) (VStr it)]>
              (<["item" := VStr it]> ∅))
           ObjectPrototype in
  foldl writeGroup row itemRows.

Definition prepareChartData (data : list SummaryRecord) : list object :=
  let items := spread (new_Set (item <$> data)) in
  pivotRow data <$> items.

(** [chartData], line 104 *)
Definition chartData (filtered : list SummaryRecord) (metadata : Metadata)
    (selectedView : string) : list object :=
  if decide (selectedView = "items")
  then prepareChartData (itemData filtered metadata)
  else prepareChartData (scaleData filtered metadata).

(** ** The component state and the initial load, lines 20-69 *)

Record state : Type := {
  summaries : list SummaryRecord;
  metadata : option Metadata;
  selectedDemographic : string;
  selectedView : string;
  loading : bool;
  error : value
}.

(** The six [useState] initial values. *)
Definition initialState : state :=
  {| summaries := []; metadata := None;
     selectedDemographic := "Overall"; selectedView := "items";
     loading := true; error := VNull |}.

(** How a promise ends.  [fetch(url).then(r => r.json())] is fulfilled with
    the parsed content, and rejected when the fetch rejects or the body does
    not parse. *)
Inductive settled (A : Type) : Type :=
  | Fulfilled (a : A)
  | Rejected.
Arguments Fulfilled {A} a.
Arguments Rejected {A}.

(** [Promise.all([p, q])] *)
Definition Promise_all {A B : Type} (p : settled A) (q : settled B)
    : settled (A * B) :=
  match p, q with
  | Fulfilled a, Fulfilled b => Fulfilled (a, b)
  | _, _ => Rejected
  end.

Inductive setter : Type :=
  | setSummaries (s : list SummaryRecord)
  | setMetadata (m : Metadata)
  | setSelectedDemographic (k : string)
  | setSelectedView (v : string)
  | setLoading (b : bool)
  | setError (e : value).

Definition loadFailedMessage : string :=
  "Failed to load data. Please run the R scripts first.".

(** The [.then] and [.catch] handlers of the load effect: the setter calls
    each one makes, in source order. *)
Definition loadHandlers (p : settled (list SummaryRecord * Metadata))
    : list setter :=
  match p with
  | Fulfilled (summariesData, metadataData) =>
      [setSummaries summariesData; setMetadata metadataData; setLoading false]
  | Rejected => [setError (VStr loadFailedMessage); setLoading false]
  end.

Definition update (st : state) (a : setter) : state :=
  match a with
  | setSummaries s =>
      {| summaries := s; metadata := metadata st;
         selectedDemographic := selectedDemographic st;
         selectedView := selectedView st;
         loading := loading st; error := error st |}
  | setMetadata m =>
      {| summaries := summaries st; metadata := Some m;
         selectedDemographic := selectedDemographic st;
         selectedView := selectedView st;
         loading := loading st; error := error st |}
  | setSelectedDemographic k =>
      {| summaries := summaries st; metadata := metadata st;
         selectedDemographic := k;
         selectedView := selectedView st;
         loading := loading st; error := error st |}
  | setSelectedView v =>
      {| summaries := summaries st; metadata := metadata st;
         selectedDemographic := selectedDemographic st;
         selectedView := v;
         loading := loading st; error := error st |}
  | setLoading b =>
      {| summaries := summaries st; metadata := metadata st;
         selectedDemographic := selectedDemographic st;
         selectedView := selectedView st;
         loading := b; error := error st |}
  | setError e =>
      {| summaries := summaries st; metadata := metadata st;
         selectedDemographic := selectedDemographic st;
         selectedView := selectedView st;
         loading := loading st; error := e |}
  end.

(** Every state the component is in while a handler runs: the state it
    starts from and the state after each setter call.  A render may happen
    at any of them (after the last one only, when the calls are batched). *)
Fixpoint statesThrough (st : state) (calls : list setter) : list state :=
  match calls with
  | [] => [st]
  | a :: calls => st :: statesThrough (update st a) calls
  end.

(** The states of the load: two reads, [Promise.all], one handler. *)
Definition loadStates (summariesRead : settled (list SummaryRecord))
    (metadataRead : settled Metadata) : list state :=
  statesThrough initialState
    (loadHandlers (Promise_all summariesRead metadataRead)).

(** What a render of [App] returns.  The dashboard is given by the two
    values its markup consumes, [groups] and [chartData]; reading a property
    of [metadata] while it is still [null] throws. *)
Inductive view : Type :=
  | ViewLoading
  | ViewError (message : value)
  | ViewDashboard (groups : list string) (chartData : list object)
  | ViewTypeError.

Definition App (st : state) : view :=
  if loading st then ViewLoading
  else if truthy (error st) then ViewError (error st)
  else match metadata st with
       | None => ViewTypeError
       | Some md =>
           let filtered :=
             filteredData (summaries st) (selectedDemographic st) in
           ViewDashboard (groups filtered)
                         (chartData filtered md (selectedView st))
       end.

(** The controls of the dashboard markup, lines 144-170: the demographic
    selector and the two view buttons.  The loading and error markup has no
    control. *)
Inductive event : Type :=
  | ChangeDemographic (value : string)
  | ClickIndividualItems
  | ClickScaleScores.

Definition handler (v : view) (e : event) : option setter :=
  match v with
  | ViewDashboard _ _ =>
      Some match e with
           | ChangeDemographic k => setSelectedDemographic k
           | ClickIndividualItems => setSelectedView "items"
           | ClickScaleScores => setSelectedView "scales"
           end
  | _ => None
  end.

(** The states the component can be in: those of the load, and those that
    follow from a control of the rendered view. *)
Inductive reachable (summariesRead : settled (list SummaryRecord))
    (metadataRead : settled Metadata) : state → Prop :=
  | reachable_load st :
      st ∈ loadStates summariesRead metadataRead →
      reachable summariesRead metadataRead st
  | reachable_event st e a :
      reachable summariesRead metadataRead st →
      handler (App st) e = Some a →
      reachable summariesRead metadataRead (update st a).

(** What holds of every reachable state, by the outcome of the load. *)
Definition loadInvariant (summariesRead : settled (list SummaryRecord))
    (metadataRead : settled Metadata) (st : state) : Prop :=
  match Promise_all summariesRead metadataRead with
  | Fulfilled (s, m) =>
      loading st = true
      ∨ (summaries st = s ∧ metadata st = Some m ∧ error st = VNull)
  | Rejected =>
      summaries st = [] ∧ metadata st = None
      ∧ ((loading st = true ∧ error st = VNull)
         ∨ error st = VStr loadFailedMessage)
  end.

(** ** The keys one group writes on a row *)

Definition companions (g : string) : list string :=
  [g +:+ "_ci"; g +:+ "_n"; g +:+ "_sd"].

Definition groupKeys (g : string) : list string := g :: companions g.

(** Two groups clash when one is spelled like a companion key of the other. *)
Definition clash (g g' : string) : Prop :=
  g ∈ companions g' ∨ g' ∈ companions g.

#[global] Instance clash_dec g g' : Decision (clash g g').
Proof. unfold clash. apply _. Defined.

Fixpoint lastAscii (s : string) : option Ascii.ascii :=
  match s with
  | EmptyString => None
  | String a EmptyString => Some a
  | String _ s' => lastAscii s'
  end.

(** The row that [prepareChartData] returns for an item: the one at the
    item's position in the list of distinct items. *)
Definition rowOf (data : list SummaryRecord) (it : string) (row : object)
    : Prop :=
  ∃ idx, spread (new_Set (item <$> data)) !! idx = Some it
         ∧ prepareChartData data !! idx = Some row.

(** ** Example inputs *)

Definition exampleRecord (it : string) (label : value) (dem g : string)
    (m s size lo hi : float) : SummaryRecord :=
  {| item := it; item_label := label; demographic := dem; group := g;
     mean := VNum m; sd := VNum s; n := VNum size;
     ci_lower := VNum lo; ci_upper := VNum hi |}.

(** The end-to-end scenario: one record, one item. *)
Definition scenarioRecord : SummaryRecord :=
  exampleRecord "i1" (VStr "Item One") "Overall" "All" 3.2 0.8 150 3.0 3.4.
Definition scenarioMetadata : Metadata :=
  {| sample_size := VNum 150; demographics := ["Overall"];
     score_types := {| items := ["i1"]; scales := [] |} |}.

(** Two records of one (item, group) pair. *)
Definition duplicateEarlier : SummaryRecord :=
  exampleRecord "a" (VStr "A") "Overall" "X" 1 0.5 10 0.5 1.5.
Definition duplicateLater : SummaryRecord :=
  exampleRecord "a" (VStr "A") "Overall" "X" 2 0.25 20 1.5 2.5.
Definition duplicateData : list SummaryRecord :=
  [duplicateEarlier; duplicateLater].

(** One item with a group spelled like the sample size key of another, and
    with a group spelled ["__proto__"]. *)
Definition clashFirst : SummaryRecord :=
  exampleRecord "a" (VStr "A") "Cohort" "X_n" 5 1 7 4 6.
Definition clashSecond : SummaryRecord :=
  exampleRecord "a" (VStr "A") "Cohort" "X" 1 0.5 10 0.5 1.5.
Definition clashThird : SummaryRecord :=
  exampleRecord "a" (VStr "A") "Cohort" "__proto__" 3 0.5 30 2.5 3.5.
Definition clashData : list SummaryRecord :=
  [clashFirst; clashSecond; clashThird].

(** Sparse data: item "b" has a record for Female and none for Male. *)
Definition sparseMale : SummaryRecord :=
  exampleRecord "a" (VStr "A") "Gender" "Male" 3 0.5 40 2.5 3.5.
Definition sparseFemale : SummaryRecord :=
  exampleRecord "b" (VStr "B") "Gender" "Female" 4 0.5 50 3.5 4.5.
Definition sparseData : list SummaryRecord := [sparseMale; sparseFemale].

(** Item "a" has the groups "X_n" and "label"; item "b" has the groups "X"
    and ["__proto__"] only. *)
Definition strayFirst : SummaryRecord :=
  exampleRecord "a" (VStr "A") "Cohort" "X_n" 5 1 7 4 6.
Definition straySecond : SummaryRecord :=
  exampleRecord "a" (VStr "A") "Cohort" "label" 2 0.5 8 1.5 2.5.
Definition strayThird : SummaryRecord :=
  exampleRecord "b" (VStr "B") "Cohort" "X" 1 0.5 10 0.5 1.5.
Definition strayFourth : SummaryRecord :=
  exampleRecord "b" (VStr "B") "Cohort" "__proto__" 3 0.5 30 2.5 3.5.
Definition strayData : list SummaryRecord :=
  [strayFirst; straySecond; strayThird; strayFourth].

(** An item key that both category lists name. *)
Definition overlapRecord : SummaryRecord :=
  exampleRecord "a" (VStr "A") "Overall" "All" 3 0.5 40 2.5 3.5.
Definition overlapMetadata : Metadata :=
  {| sample_size := VNum 40; demographics := ["Overall"];
     score_types := {| items := ["a"]; scales := ["a"] |} |}.

(** An item and a scale of one demographic, with different groups. *)
Definition viewItem : SummaryRecord :=
  exampleRecord "i1" (VStr "Item One") "Overall" "All" 3 0.5 40 2.5 3.5.
Definition viewScale : SummaryRecord :=
  exampleRecord "s1" (VStr "Scale One") "Overall" "Other" 4 0.5 50 3.5 4.5.
Definition viewData : list SummaryRecord := [viewItem; viewScale].
Definition viewMetadata : Metadata :=
  {| sample_size := VNum 90; demographics := ["Overall"];
     score_types := {| items := ["i1"]; scales := ["s1"] |} |}.

(** Records with an empty label, and with a group spelled like one of the
    two fixed keys of a row. *)
Definition emptyLabelRecord : SummaryRecord :=
  exampleRecord "a" (VStr "") "Overall" "All" 3 0.5 40 2.5 3.5.
Definition groupNamedItem : SummaryRecord :=
  exampleRecord "a" (VStr "") "Overall" "item" 1 0.5 10 0.5 1.5.
Definition groupNamedLabel : SummaryRecord :=
  exampleRecord "a" (VStr "") "Overall" "label" 2.5 0.5 10 2 3.

(** ** The bar colours and the small-sample note of the markup *)

(** [COLORS], lines 14-17 *)
Definition COLORS : list string :=
  ["#2563eb"; "#dc2626"; "#16a34a"; "#ca8a04"; "#9333ea";
   "#0891b2"; "#be185d"; "#065f46"].

(** [COLORS[index % COLORS.length]], line 207: the fill of the bar series
    of the group at position [index] of [groups]; [None] is [undefined]. *)
Definition fill (index : nat) : option string :=
  COLORS !! (index mod length COLORS).

Section RelationalComparison.
(** ToNumber of a string, and of an array or an object once ToPrimitive has
    made a string of it: the number the text spells, left open here. *)
Variable ToNumberOfText : value → float.

Definition ToNumber (v : value) : float :=
  match v with
  | VUndefined => PrimFloat.nan
  | VNull => 0%float
  | VBool true => 1%float
  | VBool false => 0%float
  | VNum x => x
  | VStr _ | VArr _ | VObj _ => ToNumberOfText v
  end.

(** [v < y] for a number [y]: false when [v] converts to [NaN]. *)
Definition lessThan (v : value) (y : float) : bool :=
  PrimFloat.ltb (ToNumber v) y.

(** The callback of [groups.some], lines 276-279.  The second operand of
    [&&] is evaluated only when the first is true, so [gData[0]] is a
    record whenever its [n] is read. *)
Definition smallGroup (filtered : list SummaryRecord) (g : string) : bool :=
  let gData := filter (λ d, group d = g) filtered in
  if bool_decide (0 < length gData)%nat
  then match gData !! 0 with
       | Some first => lessThan (n first) 30
       | None => false
       end
  else false.

(** [groups.some(...)], the condition of the warning item of the notes. *)
Definition smallSampleWarning (filtered : list SummaryRecord) : bool :=
  existsb (smallGroup filtered) (groups filtered).
End RelationalComparison.

(** Records of two groups, the second record of Male with a small
    sample. *)
Definition warningFirst : SummaryRecord :=
  exampleRecord "i1" (VStr "Item One") "Gender" "Male" 3 0.5 40 2.5 3.5.
Definition warningSecond : SummaryRecord :=
  exampleRecord "i1" (VStr "Item One") "Gender" "Female" 4 0.5 12 3.5 4.5.
Definition warningThird : SummaryRecord :=
  exampleRecord "i2" (VStr "Item Two") "Gender" "Male" 2 0.5 9 1.5 2.5.

(** * Strings: how group keys can coincide *)

Lemma string_length_app (s t : string) :
  String.length (s +:+ t) = String.length s + String.length t.
Proof. induction s as [|a s IH]; simpl; [done | by rewrite IH]. Qed.

Lemma string_app_cancel_r (s g g' : string) : g +:+ s = g' +:+ s → g = g'.
Proof.
  revert g'. induction g as [|a g IH]; intros [|b g'] H; simpl in H.
  - done.
  - apply (f_equal String.length) in H.
    rewrite ?string_length_app in H. simpl in H.
    rewrite ?string_length_app in H. lia.
  - apply (f_equal String.length) in H.
    rewrite ?string_length_app in H. simpl in H.
    rewrite ?string_length_app in H. lia.
  - injection H as -> H. f_equal. by apply IH.
Qed.

Lemma string_app_ne_self (g s : string) : s ≠ "" → g ≠ g +:+ s.
Proof.
  intros Hs H. apply (f_equal String.length) in H.
  rewrite string_length_app in H. destruct s; [done | simpl in H; lia].
Qed.

Lemma lastAscii_app (g : string) (a : Ascii.ascii) (s : string) :
  lastAscii (g +:+ String a s) = lastAscii (String a s).
Proof.
  induction g as [|b g IH]; [done |].
  change (String b g +:+ String a s) with (String b (g +:+ String a s)).
  destruct (g +:+ String a s) as [|c t] eqn:E; [by destruct g |].
  by rewrite <- IH.
Qed.

(** Keys that end in different characters differ. *)
Lemma lastAscii_ne (k k' : string) : lastAscii k ≠ lastAscii k' → k ≠ k'.
Proof. congruence. Qed.

Ltac last_char :=
  apply lastAscii_ne; rewrite ?lastAscii_app; simpl; congruence.

Lemma companion_ne_ci_n g g' : g +:+ "_ci" ≠ g' +:+ "_n".
Proof. last_char. Qed.
Lemma companion_ne_ci_sd g g' : g +:+ "_ci" ≠ g' +:+ "_sd".
Proof. last_char. Qed.
Lemma companion_ne_n_sd g g' : g +:+ "_n" ≠ g' +:+ "_sd".
Proof. last_char. Qed.

Lemma companion_not_reserved (g k : string) :
  k ∈ companions g → k ≠ "item" ∧ k ≠ "label" ∧ k ≠ "__proto__".
Proof.
  unfold companions. rewrite !elem_of_cons, elem_of_nil.
  intros [-> | [-> | [-> | []]]]; repeat split; last_char.
Qed.

Lemma companion_ne_group (g k : string) : k ∈ companions g → k ≠ g.
Proof.
  unfold companions. rewrite !elem_of_cons, elem_of_nil.
  intros [-> | [-> | [-> | []]]] H; symmetry in H;
    by apply string_app_ne_self in H.
Qed.

(** The keys of two groups overlap only when the groups are equal or
    clash. *)
Lemma groupKeys_overlap (g g' k : string) :
  k ∈ groupKeys g → k ∈ groupKeys g' → g = g' ∨ clash g g'.
Proof.
  unfold groupKeys. rewrite !elem_of_cons.
  intros [-> | Hk] [Hk' | Hk'].
  - by left.
  - right. by left.
  - right. right. by subst.
  - left. revert Hk Hk'. unfold companions.
    rewrite !elem_of_cons, !elem_of_nil.
    intros [-> | [-> | [-> | []]]] [H | [H | [H | []]]];
      first [ by apply string_app_cancel_r in H
            | by apply companion_ne_ci_n in H
            | by apply companion_ne_ci_sd in H
            | by apply companion_ne_n_sd in H
            | symmetry in H; by apply companion_ne_ci_n in H
            | symmetry in H; by apply companion_ne_ci_sd in H
            | symmetry in H; by apply companion_ne_n_sd in H ].
Qed.

Lemma groupKeys_apart (g g' k : string) :
  g ≠ g' → ¬ clash g g' → k ∈ groupKeys g → k ∉ groupKeys g'.
Proof.
  intros Hne Hcl Hk Hk'.
  destruct (groupKeys_overlap g g' k Hk Hk'); tauto.
Qed.

(** * Property assignment *)

Lemma own_assign_ne (o : object) (k k' : string) (v : value) :
  k ≠ k' → own (assign o k v) !! k' = own o !! k'.
Proof.
  intros Hne. unfold assign. case_decide.
  - by destruct v.
  - simpl. by rewrite lookup_insert_ne.
Qed.

Lemma own_assign_eq (o : object) (k : string) (v : value) :
  k ≠ "__proto__" → own (assign o k v) !! k = Some v.
Proof.
  intros Hne. unfold assign. case_decide as H.
  - by destruct H.
  - simpl. by rewrite lookup_insert_eq.
Qed.

(** An assignment never removes an own property. *)
Lemma own_assign_mono (o : object) (k k' : string) (v : value) :
  is_Some (own o !! k') → is_Some (own (assign o k v) !! k').
Proof.
  intros Hs. unfold assign. case_decide.
  - by destruct v.
  - simpl. rewrite lookup_insert. case_decide; [by eexists | done].
Qed.

(** * One record written on a row *)

Lemma writeGroup_other (row : object) (r : SummaryRecord) (k : string) :
  k ∉ groupKeys (group r) →
  own (writeGroup row r) !! k = own row !! k.
Proof.
  unfold groupKeys, companions. rewrite !not_elem_of_cons.
  intros (H1 & H2 & H3 & H4 & _). unfold writeGroup.
  rewrite !own_assign_ne; done.
Qed.

Lemma writeGroup_mono (row : object) (r : SummaryRecord) (k : string) :
  is_Some (own row !! k) → is_Some (own (writeGroup row r) !! k).
Proof. intros H. unfold writeGroup. by do 4 apply own_assign_mono. Qed.

Lemma writeGroup_mean (row : object) (r : SummaryRecord) :
  group r ≠ "__proto__" →
  own (writeGroup row r) !! group r = Some (mean r).
Proof.
  intros Hp. unfold writeGroup.
  rewrite !own_assign_ne
    by (apply companion_ne_group; unfold companions; repeat constructor).
  by apply own_assign_eq.
Qed.

Lemma writeGroup_ci (row : object) (r : SummaryRecord) :
  own (writeGroup row r) !! (group r +:+ "_ci")
  = Some (VArr [ci_lower r; ci_upper r]).
Proof.
  unfold writeGroup.
  rewrite own_assign_ne
    by (intros H; symmetry in H; by apply companion_ne_ci_sd in H).
  rewrite own_assign_ne
    by (intros H; symmetry in H; by apply companion_ne_ci_n in H).
  apply own_assign_eq. last_char.
Qed.

Lemma writeGroup_n (row : object) (r : SummaryRecord) :
  own (writeGroup row r) !! (group r +:+ "_n") = Some (n r).
Proof.
  unfold writeGroup.
  rewrite own_assign_ne
    by (intros H; symmetry in H; by apply companion_ne_n_sd in H).
  apply own_assign_eq. last_char.
Qed.

Lemma writeGroup_sd (row : object) (r : SummaryRecord) :
  own (writeGroup row r) !! (group r +:+ "_sd") = Some (sd r).
Proof. unfold writeGroup. apply own_assign_eq. last_char. Qed.

(** * The insertion-ordered set *)

Section JsSetFacts.
Context {A : Type} `{EqDecision A}.
Implicit Types (xs s : list A) (x y : A).

Lemma new_Set_snoc xs x : new_Set (xs ++ [x]) = Set_add (new_Set xs) x.
Proof. unfold new_Set. by rewrite foldl_snoc. Qed.

Lemma elem_of_Set_add s x y : y ∈ Set_add s x ↔ y ∈ s ∨ y = x.
Proof.
  unfold Set_add. case_decide as Hx.
  - split; [by left | by intros [? | ->]].
  - rewrite elem_of_app, list_elem_of_singleton. tauto.
Qed.

Lemma elem_of_new_Set xs y : y ∈ new_Set xs ↔ y ∈ xs.
Proof.
  induction xs as [|x xs IH] using rev_ind.
  - done.
  - rewrite new_Set_snoc, elem_of_Set_add, elem_of_app,
      list_elem_of_singleton. tauto.
Qed.

Lemma NoDup_new_Set xs : NoDup (new_Set xs).
Proof.
  induction xs as [|x xs IH] using rev_ind.
  - constructor.
  - rewrite new_Set_snoc. unfold Set_add. case_decide as Hx; [done |].
    apply NoDup_app. split_and!; [done | | apply NoDup_singleton].
    intros y Hy ->%list_elem_of_singleton. done.
Qed.

(** The order of the set is the order of first occurrences: of two
    elements, the earlier one in the set occurs in the input before every
    occurrence of the later one. *)
Lemma new_Set_first_occurrence xs i j x y :
  new_Set xs !! i = Some x → new_Set xs !! j = Some y → (i < j)%nat →
  ∃ k, xs !! k = Some x ∧ ∀ k', xs !! k' = Some y → (k < k')%nat.
Proof.
  revert i j x y. induction xs as [|a xs IH] using rev_ind;
    intros i j x y Hi Hj Hij; [done |].
  assert (∀ k k' : nat, xs !! k = Some x → (length xs ≤ k')%nat → (k < k')%nat)
    as Hend.
  { intros k k' Hk%lookup_lt_Some ?. lia. }
  rewrite new_Set_snoc in Hi, Hj. unfold Set_add in Hi, Hj.
  case_decide as Ha.
  - destruct (IH i j x y Hi Hj Hij) as (k & Hk & Hfirst).
    exists k. split; [by apply lookup_app_l_Some |].
    intros k' [Hk' | [Hlen _]]%lookup_app_Some; eauto.
  - apply lookup_app_Some in Hj as [Hj | [Hlen Hj]].
    + assert (new_Set xs !! i = Some x) as Hi'.
      { apply lookup_lt_Some in Hj.
        by rewrite lookup_app_l in Hi by lia. }
      destruct (IH i j x y Hi' Hj Hij) as (k & Hk & Hfirst).
      exists k. split; [by apply lookup_app_l_Some |].
      intros k' [Hk' | [Hlen' _]]%lookup_app_Some; eauto.
    + apply list_lookup_singleton_Some in Hj as [Hj0 ->].
      apply lookup_app_Some in Hi as [Hi | [Hlen' Hi]].
      * assert (x ∈ xs) as [k Hk]%list_elem_of_lookup.
        { apply elem_of_new_Set. by eapply list_elem_of_lookup_2. }
        exists k. split; [by apply lookup_app_l_Some |].
        intros k' [Hk' | [Hlen' _]]%lookup_app_Some; eauto.
        exfalso. apply Ha, elem_of_new_Set.
        by eapply list_elem_of_lookup_2.
      * apply list_lookup_singleton_Some in Hi as [Hi0 _]. lia.
Qed.
End JsSetFacts.

(** * The pivot *)

Lemma clash_sym (g g' : string) : clash g g' → clash g' g.
Proof. unfold clash. tauto. Qed.

Lemma Forall_filter_impl {A : Type} (P Q : A → Prop)
    `{!∀ x, Decision (Q x)} (l : list A) :
  Forall (λ x, Q x → P x) l → Forall P (filter Q l).
Proof.
  rewrite !Forall_forall. intros Hall x [HQ Hx]%list_elem_of_filter. auto.
Qed.

Lemma foldl_writeGroup_other (row : object) (rows : list SummaryRecord)
    (k : string) :
  Forall (λ r, k ∉ groupKeys (group r)) rows →
  own (foldl writeGroup row rows) !! k = own row !! k.
Proof.
  revert row. induction rows as [|r rows IH]; intros row Hall; [done |].
  apply Forall_cons in Hall as [Hr Hall]. simpl.
  rewrite IH by done. by apply writeGroup_other.
Qed.

Lemma foldl_writeGroup_mono (row : object) (rows : list SummaryRecord)
    (k : string) :
  is_Some (own row !! k) → is_Some (own (foldl writeGroup row rows) !! k).
Proof.
  revert row. induction rows as [|r rows IH]; intros row Hk; [done |].
  simpl. by apply IH, writeGroup_mono.
Qed.

(** Keyed overwrite: after all the records are written, the four keys of a
    group hold the fields of the last record of that group, as long as no
    other group of the rows is spelled like one of those keys. *)
Lemma foldl_writeGroup_last (row : object) (rows : list SummaryRecord)
    (g : string) (r' : SummaryRecord) :
  last (filter (λ r, group r = g) rows) = Some r' →
  Forall (λ r, ¬ clash (group r) g) rows →
  let row' := foldl writeGroup row rows in
  (g ≠ "__proto__" → own row' !! g = Some (mean r'))
  ∧ own row' !! (g +:+ "_ci") = Some (VArr [ci_lower r'; ci_upper r'])
  ∧ own row' !! (g +:+ "_n") = Some (n r')
  ∧ own row' !! (g +:+ "_sd") = Some (sd r').
Proof.
  simpl. revert r'. induction rows as [|r rows IH] using rev_ind;
    intros r' Hlast Hall; [done |].
  apply Forall_app in Hall as [Hall Hr].
  rewrite Forall_singleton in Hr.
  rewrite foldl_snoc. rewrite filter_app in Hlast.
  destruct (decide (group r = g)) as [Hg | Hg].
  - rewrite filter_cons_True, filter_nil, last_snoc in Hlast by done.
    injection Hlast as ->. subst g.
    auto using writeGroup_mean, writeGroup_ci, writeGroup_n, writeGroup_sd.
  - rewrite filter_cons_False, filter_nil, app_nil_r in Hlast by done.
    assert (∀ k, k ∈ groupKeys g → k ∉ groupKeys (group r)) as Hapart.
    { intros k. apply groupKeys_apart; [done |].
      intros Hc. by apply Hr, clash_sym. }
    destruct (IH r' Hlast Hall) as (Hm & Hci & Hn & Hsd).
    rewrite !writeGroup_other
      by (apply Hapart; unfold groupKeys, companions; repeat constructor).
    done.
Qed.

Lemma rowOf_pivotRow (data : list SummaryRecord) (it : string) (row : object) :
  rowOf data it row → row = pivotRow data it.
Proof.
  intros (idx & Hit & Hrow). unfold prepareChartData in Hrow.
  rewrite list_lookup_fmap, Hit in Hrow. by injection Hrow.
Qed.

Lemma rowOf_exists (data : list SummaryRecord) (r : SummaryRecord) :
  r ∈ data → rowOf data (item r) (pivotRow data (item r)).
Proof.
  intros Hr.
  assert (item r ∈ new_Set (item <$> data)) as [idx Hidx]%list_elem_of_lookup.
  { apply elem_of_new_Set, list_elem_of_fmap. eauto. }
  exists idx. split; [done |].
  unfold prepareChartData, spread. by rewrite list_lookup_fmap, Hidx.
Qed.

Lemma rowOf_item_in (data : list SummaryRecord) (it : string) (row : object) :
  rowOf data it row → ∃ r, r ∈ data ∧ item r = it.
Proof.
  intros (idx & Hit%list_elem_of_lookup_2 & _).
  apply elem_of_new_Set, list_elem_of_fmap in Hit as (r & -> & Hr). eauto.
Qed.

(** The two keys of the object literal survive the writes unless a group
    is spelled like one of them. *)
Lemma pivotRow_item (data : list SummaryRecord) (it : string) :
  Forall (λ d, item d = it → group d ≠ "item") data →
  own (pivotRow data it) !! "item" = Some (VStr it).
Proof.
  intros Hall. unfold pivotRow. rewrite foldl_writeGroup_other.
  - simpl. by rewrite lookup_insert_ne, lookup_insert_eq.
  - apply Forall_filter_impl. eapply Forall_impl; [exact Hall |].
    intros d Hd Hi [Heq | Hc]%elem_of_cons; [by apply Hd |].
    by apply companion_not_reserved in Hc as (? & _).
Qed.

Lemma pivotRow_label (data : list SummaryRecord) (it : string) :
  Forall (λ d, item d = it → group d ≠ "label") data →
  own (pivotRow data it) !! "label"
  = Some (js_or (firstLabel (filter (λ d, item d = it) data)) (VStr it)).
Proof.
  intros Hall. unfold pivotRow. rewrite foldl_writeGroup_other.
  - simpl. by rewrite lookup_insert_eq.
  - apply Forall_filter_impl. eapply Forall_impl; [exact Hall |].
    intros d Hd Hi [Heq | Hc]%elem_of_cons; [by apply Hd |].
    by apply companion_not_reserved in Hc as (_ & ? & _).
Qed.

Lemma filter_item_group (data : list SummaryRecord) (it g : string) :
  filter (λ r, group r = g) (filter (λ d, item d = it) data)
  = filter (λ d, item d = it ∧ group d = g) data.
Proof. rewrite list_filter_filter. apply list_filter_iff. tauto. Qed.

(** C1 (amended).  For the last record [r'] of an (item, group) pair, the
    row of that item holds [r']'s confidence interval, sample size and
    standard deviation under the group's three companion keys, and its mean
    under the group key unless the group is spelled ["__proto__"]; this
    holds whenever no other group of that item is spelled like one of those
    keys (and no key of the group like that other group). *)
Theorem pivot_last_write_wins (data : list SummaryRecord) (it g : string)
    (r' : SummaryRecord) :
  last (filter (λ d, item d = it ∧ group d = g) data) = Some r' →
  Forall (λ d, item d = it → ¬ clash (group d) g) data →
  ∃ row, rowOf data it row
    ∧ (g ≠ "__proto__" → own row !! g = Some (mean r'))
    ∧ own row !! (g +:+ "_ci") = Some (VArr [ci_lower r'; ci_upper r'])
    ∧ own row !! (g +:+ "_n") = Some (n r')
    ∧ own row !! (g +:+ "_sd") = Some (sd r').
Proof.
  intros Hlast Hall. exists (pivotRow data it). split.
  - apply last_Some_elem_of, list_elem_of_filter in Hlast as [[<- _] Hin].
    by apply rowOf_exists.
  - unfold pivotRow. apply foldl_writeGroup_last.
    + by rewrite filter_item_group.
    + by apply Forall_filter_impl.
Qed.

(** C3 (amended).  On the row of an item: when no record of the item has
    group [g], none of [g]'s four keys is set, provided [g] is not spelled
    ["item"] or ["label"] and clashes with no group of the item; when some
    record of the item has group [g], the three companion keys are set, and
    so is the key [g] unless [g] is spelled ["__proto__"]. *)
Theorem pivot_sparse_keys (data : list SummaryRecord) (it g : string)
    (row : object) :
  rowOf data it row →
  ((∀ r, r ∈ data → item r = it → group r ≠ g) →
   g ≠ "item" → g ≠ "label" →
   Forall (λ d, item d = it → ¬ clash (group d) g) data →
   Forall (λ k, own row !! k = None) (groupKeys g))
  ∧ ((∃ r, r ∈ data ∧ item r = it ∧ group r = g) →
     (g ≠ "__proto__" → is_Some (own row !! g))
     ∧ Forall (λ k, is_Some (own row !! k)) (companions g)).
Proof.
  intros ->%rowOf_pivotRow. split.
  - intros Hnone Hitem Hlabel Hall. apply Forall_forall. intros k Hk.
    unfold pivotRow. rewrite foldl_writeGroup_other.
    + assert (k ≠ "item" ∧ k ≠ "label") as [? ?].
      { apply elem_of_cons in Hk as [-> | Hk]; [done |].
        apply companion_not_reserved in Hk. tauto. }
      simpl. by rewrite !lookup_insert_ne, lookup_empty.
    + apply Forall_filter_impl, Forall_forall. intros d Hd Hi.
      rewrite Forall_forall in Hall.
      apply (groupKeys_apart g); [| | done].
      * intros Heq. by eapply Hnone.
      * intros Hc. by eapply Hall, clash_sym.
  - intros (r & Hr & Hi & Hg).
    assert (r ∈ filter (λ d, item d = it) data) as Hrows
      by by apply list_elem_of_filter.
    apply list_elem_of_split in Hrows as (l1 & l2 & Hrows).
    unfold pivotRow. rewrite Hrows, foldl_app. simpl. subst g. split.
    + intros Hp. apply foldl_writeGroup_mono.
      rewrite writeGroup_mean by done. by eexists.
    + unfold companions. repeat apply Forall_cons_2; [| | | done];
        apply foldl_writeGroup_mono;
        rewrite ?writeGroup_ci, ?writeGroup_n, ?writeGroup_sd; by eexists.
Qed.

Lemma firstLabel_head (rows : list SummaryRecord) (first : SummaryRecord) :
  head rows = Some first → firstLabel rows = item_label first.
Proof. unfold firstLabel. rewrite head_lookup. by intros ->. Qed.

(** C8 (amended).  The row of an item has [item] equal to the item key, and
    [label] equal to the [item_label] of the first record of that item when
    that value is truthy and to the item key otherwise, provided no record
    of the item has a group spelled ["item"] or ["label"]. *)
Theorem pivot_item_and_label (data : list SummaryRecord) (it : string)
    (row : object) (first : SummaryRecord) :
  rowOf data it row →
  head (filter (λ d, item d = it) data) = Some first →
  Forall (λ d, item d = it → group d ≠ "item" ∧ group d ≠ "label") data →
  own row !! "item" = Some (VStr it)
  ∧ own row !! "label"
    = Some (if truthy (item_label first) then item_label first else VStr it).
Proof.
  intros ->%rowOf_pivotRow Hfirst Hall. split.
  - apply pivotRow_item. eapply Forall_impl; [exact Hall |].
    intros d Hd Hi. by destruct (Hd Hi).
  - rewrite pivotRow_label, (firstLabel_head _ first) by
      (done || (eapply Forall_impl; [exact Hall |];
                intros d Hd Hi; by destruct (Hd Hi))).
    done.
Qed.

(** C10 (amended).  When the first record of an item has a falsy
    [item_label] (the empty string, [null], [false], a zero, or none at
    all), the [label] of the item's row is the item key, provided no record
    of the item has a group spelled ["label"]. *)
Theorem pivot_label_fallback_falsy (data : list SummaryRecord) (it : string)
    (row : object) (first : SummaryRecord) :
  rowOf data it row →
  head (filter (λ d, item d = it) data) = Some first →
  truthy (item_label first) = false →
  Forall (λ d, item d = it → group d ≠ "label") data →
  own row !! "label" = Some (VStr it).
Proof.
  intros ->%rowOf_pivotRow Hfirst Hfalsy Hall.
  rewrite pivotRow_label, (firstLabel_head _ first) by done.
  unfold js_or. by rewrite Hfalsy.
Qed.

Lemma elem_of_field {B : Type} (f : SummaryRecord → B)
    (l : list SummaryRecord) (x : B) :
  x ∈ f <$> l ↔ ∃ r, r ∈ l ∧ f r = x.
Proof.
  rewrite list_elem_of_fmap.
  split; [intros (r & -> & Hr) | intros (r & Hr & <-)]; eauto.
Qed.

(** C2.  [prepareChartData] returns one row per distinct item: the rows
    are those of a duplicate-free list of items, which has exactly the item
    values of the input and lists them in the order of their first
    occurrences; and unless a group is spelled ["item"], the [item] fields
    of the rows are that list. *)
Theorem pivot_one_row_per_item (data : list SummaryRecord) :
  ∃ its : list string,
    length (prepareChartData data) = length its
    ∧ (∀ idx it, its !! idx = Some it →
         prepareChartData data !! idx = Some (pivotRow data it))
    ∧ NoDup its
    ∧ (∀ it, it ∈ its ↔ ∃ r, r ∈ data ∧ item r = it)
    ∧ (∀ i j x y, its !! i = Some x → its !! j = Some y → (i < j)%nat →
         ∃ k, (item <$> data) !! k = Some x
              ∧ ∀ k', (item <$> data) !! k' = Some y → (k < k')%nat)
    ∧ (Forall (λ d, group d ≠ "item") data →
       (λ row, own row !! "item") <$> prepareChartData data
       = (λ it, Some (VStr it)) <$> its).
Proof.
  exists (spread (new_Set (item <$> data))). unfold prepareChartData, spread.
  split_and!.
  - by rewrite length_fmap.
  - intros idx it Hit. by rewrite list_lookup_fmap, Hit.
  - apply NoDup_new_Set.
  - intros it. by rewrite elem_of_new_Set, elem_of_field.
  - apply new_Set_first_occurrence.
  - intros Hall. rewrite <- list_fmap_compose. apply list_fmap_ext.
    intros idx it _. simpl. apply pivotRow_item.
    eapply Forall_impl; [exact Hall |]. auto.
Qed.

(** C6.  Group discovery returns the distinct [group] values of the subset,
    each once, in the order of their first occurrences; groups met in the
    order Male, Female, Male give exactly Male, Female. *)
Theorem groups_distinct_first_occurrence (subset : list SummaryRecord) :
  NoDup (groups subset)
  ∧ (∀ g, g ∈ groups subset ↔ ∃ r, r ∈ subset ∧ group r = g)
  ∧ (∀ i j g g', groups subset !! i = Some g → groups subset !! j = Some g' →
       (i < j)%nat →
       ∃ k, (group <$> subset) !! k = Some g
            ∧ ∀ k', (group <$> subset) !! k' = Some g' → (k < k')%nat)
  ∧ (∀ r1 r2 r3, group r1 = "Male" → group r2 = "Female" →
       group r3 = "Male" → groups [r1; r2; r3] = ["Male"; "Female"]).
Proof.
  unfold groups, spread. split_and!.
  - apply NoDup_new_Set.
  - intros g. by rewrite elem_of_new_Set, elem_of_field.
  - apply new_Set_first_occurrence.
  - intros r1 r2 r3 H1 H2 H3. simpl. by rewrite H1, H2, H3.
Qed.

(** C4.  The filter stage returns exactly the records whose [demographic]
    is the selected key: every record of the result has it, the result is a
    sublist of the collection (same order), the records left out are those
    with another [demographic] (so each matching record is kept once), and
    with no matching record the result is empty. *)
Theorem filter_by_demographic (records : list SummaryRecord) (k : string) :
  Forall (λ d, demographic d = k) (filteredData records k)
  ∧ filteredData records k `sublist_of` records
  ∧ (∃ rest, records ≡ₚ filteredData records k ++ rest
             ∧ Forall (λ d, demographic d ≠ k) rest)
  ∧ (∀ d, d ∈ filteredData records k ↔ d ∈ records ∧ demographic d = k)
  ∧ (Forall (λ d, demographic d ≠ k) records → filteredData records k = []).
Proof.
  unfold filteredData. split_and!.
  - apply Forall_forall. by intros d [? _]%list_elem_of_filter.
  - apply sublist_filter.
  - exists (filter (λ d, ¬ demographic d = k) records). split.
    + symmetry. apply filter_app_complement.
    + apply Forall_forall. by intros d [? _]%list_elem_of_filter.
  - intros d. rewrite list_elem_of_filter. tauto.
  - intros Hall. induction Hall as [|d l Hd _ IH]; [done |].
    by rewrite filter_cons_False.
Qed.

(** C5 (amended).  A record of the subset whose item is in exactly one
    category list is in exactly that category's subset; one whose item is
    in neither list is in neither subset; one whose item is in both lists is
    in both subsets; so the two subsets share no record whenever no item of
    the subset is in both lists.  Both subsets keep the subset's order. *)
Theorem partition_by_category (subset : list SummaryRecord) (md : Metadata) :
  (∀ d, d ∈ subset →
     item d ∈ items (score_types md) → item d ∉ scales (score_types md) →
     d ∈ itemData subset md ∧ (d ∉ scaleData subset md))
  ∧ (∀ d, d ∈ subset →
       item d ∉ items (score_types md) → item d ∈ scales (score_types md) →
       (d ∉ itemData subset md) ∧ d ∈ scaleData subset md)
  ∧ (∀ d, d ∈ subset →
       item d ∉ items (score_types md) → item d ∉ scales (score_types md) →
       (d ∉ itemData subset md) ∧ (d ∉ scaleData subset md))
  ∧ (∀ d, d ∈ subset →
       item d ∈ items (score_types md) → item d ∈ scales (score_types md) →
       d ∈ itemData subset md ∧ d ∈ scaleData subset md)
  ∧ (Forall (λ d, ¬ (item d ∈ items (score_types md)
                     ∧ item d ∈ scales (score_types md))) subset →
     ∀ d, ¬ (d ∈ itemData subset md ∧ d ∈ scaleData subset md))
  ∧ itemData subset md `sublist_of` subset
  ∧ scaleData subset md `sublist_of` subset.
Proof.
  unfold itemData, scaleData. split_and!.
  - intros d Hd Hi Hs. rewrite !list_elem_of_filter. tauto.
  - intros d Hd Hi Hs. rewrite !list_elem_of_filter. tauto.
  - intros d Hd Hi Hs. rewrite !list_elem_of_filter. tauto.
  - intros d Hd Hi Hs. rewrite !list_elem_of_filter. tauto.
  - intros Hall d. rewrite !list_elem_of_filter. intros [[Hi Hd] [Hs _]].
    rewrite Forall_forall in Hall. by apply (Hall d Hd).
  - apply sublist_filter.
  - apply sublist_filter.
Qed.

(** C7 (amended).  Whatever the selected demographic key and view, the
    dashboard's group list is the list of distinct groups, in first
    occurrence order, of the whole demographic-filtered subset; the chart
    rows are the pivot of the selected category's subset, and every group of
    that subset is in the group list. *)
Theorem recompute_groups_of_filtered (records : list SummaryRecord)
    (md : Metadata) (k v : string) :
  let filtered := filteredData records k in
  let selected :=
    if decide (v = "items") then itemData filtered md
    else scaleData filtered md in
  App {| summaries := records; metadata := Some md;
         selectedDemographic := k; selectedView := v;
         loading := false; error := VNull |}
  = ViewDashboard (spread (new_Set (group <$> filtered)))
                  (prepareChartData selected)
  ∧ (∀ g, g ∈ spread (new_Set (group <$> selected)) →
          g ∈ spread (new_Set (group <$> filtered))).
Proof.
  simpl. split.
  - unfold App, chartData, groups. simpl. by case_decide.
  - unfold spread. intros g.
    rewrite !elem_of_new_Set, !elem_of_field. intros (r & Hr & Hg).
    exists r. split; [| done].
    case_decide; unfold itemData, scaleData in Hr;
      by apply list_elem_of_filter in Hr as [_ Hr].
Qed.

Lemma loadStates_invariant (summariesRead : settled (list SummaryRecord))
    (metadataRead : settled Metadata) :
  Forall (loadInvariant summariesRead metadataRead)
         (loadStates summariesRead metadataRead).
Proof.
  unfold loadInvariant, loadStates.
  destruct summariesRead as [s |], metadataRead as [m |]; cbn;
    repeat apply Forall_cons_2; try apply Forall_nil_2; cbn; auto 10.
Qed.

Lemma reachable_invariant (summariesRead : settled (list SummaryRecord))
    (metadataRead : settled Metadata) (st : state) :
  reachable summariesRead metadataRead st →
  loadInvariant summariesRead metadataRead st.
Proof.
  induction 1 as [st Hst | st e a _ IH Hev].
  - by apply (proj1 (Forall_forall _ _)
                (loadStates_invariant summariesRead metadataRead)).
  - revert IH Hev. unfold loadInvariant, App.
    destruct (Promise_all summariesRead metadataRead) as [[s m] |].
    + intros [Hl | (Hs & Hm & He)].
      * by rewrite Hl.
      * destruct (loading st); [done |]. rewrite He, Hm. cbn.
        intros [= <-]. right. by destruct e.
    + intros (Hs & Hm & [[Hl He] | He]).
      * by rewrite Hl.
      * destruct (loading st); [done |]. by rewrite He.
Qed.

(** C9.  The load is all or nothing.  When either read is rejected, every
    state the component passes through keeps [summaries] and [metadata] at
    their initial values and renders the loading or the error view, and the
    last state renders the error view.  When both reads are fulfilled, a
    state renders the dashboard only with both values written.  And of
    every state the component can reach afterwards: after a rejected read
    both values are still initial, the view is the loading or the error
    view and it has no control to leave it; a render of the dashboard sees
    both values as the two reads gave them; and no render reads [metadata]
    while it is [null]. *)
Theorem load_all_or_nothing (summariesRead : settled (list SummaryRecord))
    (metadataRead : settled Metadata) :
  let sts := loadStates summariesRead metadataRead in
  ((summariesRead = Rejected ∨ metadataRead = Rejected) →
     Forall (λ st, summaries st = [] ∧ metadata st = None
                   ∧ (App st = ViewLoading
                      ∨ App st = ViewError (VStr loadFailedMessage))) sts
     ∧ ∃ st, last sts = Some st ∧ loading st = false
             ∧ App st = ViewError (VStr loadFailedMessage))
  ∧ (∀ s m, summariesRead = Fulfilled s → metadataRead = Fulfilled m →
       Forall (λ st, App st = ViewLoading
                     ∨ (summaries st = s ∧ metadata st = Some m
                        ∧ ∃ gs cd, App st = ViewDashboard gs cd)) sts
       ∧ ∃ st, last sts = Some st ∧ loading st = false
               ∧ summaries st = s ∧ metadata st = Some m
               ∧ error st = VNull)
  ∧ (∀ st, reachable summariesRead metadataRead st →
       ((summariesRead = Rejected ∨ metadataRead = Rejected) →
          summaries st = [] ∧ metadata st = None
          ∧ (App st = ViewLoading
             ∨ App st = ViewError (VStr loadFailedMessage))
          ∧ ∀ e, handler (App st) e = None)
       ∧ (∀ gs cd, App st = ViewDashboard gs cd →
            summariesRead = Fulfilled (summaries st)
            ∧ ∃ m, metadata st = Some m ∧ metadataRead = Fulfilled m)
       ∧ App st ≠ ViewTypeError).
Proof.
  cbv zeta. split_and!.
  - intros Hrej.
    assert (Promise_all summariesRead metadataRead = Rejected) as Hall.
    { destruct Hrej as [-> | ->]; [done | by destruct summariesRead]. }
    unfold loadStates. rewrite Hall. cbn -[App]. split.
    + repeat apply Forall_cons_2; try apply Forall_nil_2; cbn; auto.
    + eexists. split_and!; reflexivity.
  - intros s m -> ->. unfold loadStates. cbn -[App]. split.
    + repeat apply Forall_cons_2; try apply Forall_nil_2; cbn; eauto 10.
    + eexists. split_and!; reflexivity.
  - intros st Hinv%reachable_invariant. revert Hinv.
    unfold loadInvariant, App.
    destruct summariesRead as [s |], metadataRead as [m |]; cbn.
    + intros [Hl | (Hs & Hm & He)].
      * rewrite Hl. split_and!; [by intros [? | ?] | done | done].
      * rewrite He, Hm. destruct (loading st); cbn;
          (split_and!; [by intros [? | ?] | | done]);
          [done | intros gs cd _; rewrite Hs; eauto].
    + intros (Hs & Hm & [[Hl He] | He]).
      * rewrite Hl. split_and!; [auto | done | done].
      * rewrite He. destruct (loading st); cbn;
          split_and!; auto; done.
    + intros (Hs & Hm & [[Hl He] | He]).
      * rewrite Hl. split_and!; [auto | done | done].
      * rewrite He. destruct (loading st); cbn;
          split_and!; auto; done.
    + intros (Hs & Hm & [[Hl He] | He]).
      * rewrite Hl. split_and!; [auto | done | done].
      * rewrite He. destruct (loading st); cbn;
          split_and!; auto; done.
Qed.

(** * The claims on concrete inputs *)

(** A key that holds one float literal does not hold another that [=?]
    tells apart from it. *)
Ltac float_ne :=
  let H := fresh in
  intros H;
  match type of H with
  | _ = Some (VNum ?y) =>
      apply (f_equal (λ o, match o with
                           | Some (VNum z) => PrimFloat.eqb z y
                           | _ => false
                           end)) in H;
      vm_compute in H; discriminate
  end.

(** C1, witness: the later of two records of the pair (a, X) wins. *)
Lemma pivot_last_write_wins_witness :
  ∃ row, rowOf duplicateData "a" row
    ∧ ("X" ≠ "__proto__" → own row !! "X" = Some (VNum 2))
    ∧ own row !! "X_ci" = Some (VArr [VNum 1.5; VNum 2.5])
    ∧ own row !! "X_n" = Some (VNum 20)
    ∧ own row !! "X_sd" = Some (VNum 0.25).
Proof.
  apply (pivot_last_write_wins duplicateData "a" "X" duplicateLater).
  - reflexivity.
  - compute_done.
Defined.

(** C1, counterexample: the group "X_n" of item "a" has mean 5, but the key
    "X_n" of the row holds 10, the sample size of group "X" written after
    it; and the mean of the group ["__proto__"] is not on the row at all. *)
Lemma pivot_last_write_wins_counterexample :
  prepareChartData clashData = [pivotRow clashData "a"]
  ∧ last (filter (λ d, item d = "a" ∧ group d = "X_n") clashData)
    = Some clashFirst
  ∧ own (pivotRow clashData "a") !! "X_n" = Some (VNum 10)
  ∧ own (pivotRow clashData "a") !! "X_n" ≠ Some (mean clashFirst)
  ∧ last (filter (λ d, item d = "a" ∧ group d = "__proto__") clashData)
    = Some clashThird
  ∧ own (pivotRow clashData "a") !! "__proto__" = None.
Proof.
  split_and!; try (vm_compute; reflexivity).
  vm_compute. float_ne.
Qed.

(** C2, on the sparse data: two items, two rows, in input order. *)
Lemma pivot_one_row_per_item_witness :
  ∃ its : list string,
    length (prepareChartData sparseData) = length its
    ∧ (∀ idx it, its !! idx = Some it →
         prepareChartData sparseData !! idx = Some (pivotRow sparseData it))
    ∧ NoDup its
    ∧ (∀ it, it ∈ its ↔ ∃ r, r ∈ sparseData ∧ item r = it)
    ∧ (∀ i j x y, its !! i = Some x → its !! j = Some y → (i < j)%nat →
         ∃ k, (item <$> sparseData) !! k = Some x
              ∧ ∀ k', (item <$> sparseData) !! k' = Some y → (k < k')%nat)
    ∧ (Forall (λ d, group d ≠ "item") sparseData →
       (λ row, own row !! "item") <$> prepareChartData sparseData
       = (λ it, Some (VStr it)) <$> its).
Proof. exact (pivot_one_row_per_item sparseData). Defined.

Example pivot_sparse_items :
  (λ row, own row !! "item") <$> prepareChartData sparseData
  = [Some (VStr "a"); Some (VStr "b")].
Proof. reflexivity. Qed.

(** C3, witness: the row of "b" has no key of Male and every key of
    Female. *)
Lemma pivot_sparse_keys_witness :
  (Forall (λ k, own (pivotRow sparseData "b") !! k = None)
          ["Male"; "Male_ci"; "Male_n"; "Male_sd"])
  ∧ is_Some (own (pivotRow sparseData "b") !! "Female")
  ∧ Forall (λ k, is_Some (own (pivotRow sparseData "b") !! k))
           ["Female_ci"; "Female_n"; "Female_sd"].
Proof.
  assert (rowOf sparseData "b" (pivotRow sparseData "b")) as Hrow
    by exact (rowOf_exists sparseData sparseFemale
                ltac:(repeat constructor)).
  split.
  - apply (proj1 (pivot_sparse_keys sparseData "b" "Male" _ Hrow)).
    + assert (Forall (λ r, item r = "b" → group r ≠ "Male") sparseData)
        as Hall by compute_done.
      intros r Hr. exact (proj1 (Forall_forall _ _) Hall r Hr).
    + discriminate.
    + discriminate.
    + compute_done.
  - destruct (proj2 (pivot_sparse_keys sparseData "b" "Female" _ Hrow))
      as [Hmean Hcompanions].
    + exists sparseFemale. split_and!; [repeat constructor | done | done].
    + split; [by apply Hmean | exact Hcompanions].
Defined.

(** C3, counterexample: "X_n" and "label" are groups of item "a"; item "b"
    has no record of either, yet the keys "X_n" and "label" are set on its
    row; and it has a record of group ["__proto__"], yet that key is not
    set. *)
Lemma pivot_sparse_keys_counterexample :
  prepareChartData strayData
  = [pivotRow strayData "a"; pivotRow strayData "b"]
  ∧ groups strayData = ["X_n"; "label"; "X"; "__proto__"]
  ∧ filter (λ d, item d = "b" ∧ group d = "X_n") strayData = []
  ∧ own (pivotRow strayData "b") !! "X_n" = Some (VNum 10)
  ∧ filter (λ d, item d = "b" ∧ group d = "label") strayData = []
  ∧ own (pivotRow strayData "b") !! "label" = Some (VStr "B")
  ∧ filter (λ d, item d = "b" ∧ group d = "__proto__") strayData
    = [strayFourth]
  ∧ own (pivotRow strayData "b") !! "__proto__" = None.
Proof. split_and!; vm_compute; reflexivity. Qed.

(** C4, on the two-demographic input: the key is compared exactly. *)
Lemma filter_by_demographic_witness :
  filteredData [sparseMale; scenarioRecord; sparseFemale] "Gender"
  = [sparseMale; sparseFemale]
  ∧ filteredData [sparseMale; scenarioRecord; sparseFemale] "gender" = [].
Proof.
  split; [reflexivity |].
  apply (filter_by_demographic [sparseMale; scenarioRecord; sparseFemale]
           "gender").
  compute_done.
Defined.

(** C5, witness: with disjoint category lists the item record is in the
    item subset only, and the scale record is not in both subsets. *)
Lemma partition_by_category_witness :
  (viewItem ∈ itemData viewData viewMetadata
   ∧ (viewItem ∉ scaleData viewData viewMetadata))
  ∧ ¬ (viewScale ∈ itemData viewData viewMetadata
       ∧ viewScale ∈ scaleData viewData viewMetadata).
Proof.
  split.
  - apply (partition_by_category viewData viewMetadata);
      [repeat constructor | compute_done | compute_done].
  - apply (partition_by_category viewData viewMetadata). compute_done.
Defined.

(** C5, counterexample: an item key in both lists puts its record in both
    subsets. *)
Lemma partition_by_category_counterexample :
  itemData [overlapRecord] overlapMetadata = [overlapRecord]
  ∧ scaleData [overlapRecord] overlapMetadata = [overlapRecord]
  ∧ overlapRecord ∈ itemData [overlapRecord] overlapMetadata
  ∧ overlapRecord ∈ scaleData [overlapRecord] overlapMetadata.
Proof. split_and!; try reflexivity; apply list_elem_of_here. Qed.

(** C6, witness: Male, Female, Male. *)
Lemma groups_distinct_first_occurrence_witness :
  groups [sparseMale; sparseFemale; sparseMale] = ["Male"; "Female"].
Proof.
  apply (groups_distinct_first_occurrence []); reflexivity.
Defined.

(** C7, witness: the end-to-end scenario. *)
Lemma recompute_groups_of_filtered_witness :
  App {| summaries := [scenarioRecord]; metadata := Some scenarioMetadata;
         selectedDemographic := "Overall"; selectedView := "items";
         loading := false; error := VNull |}
  = ViewDashboard ["All"]
      [Object (<["item" := VStr "i1"]>
               (<["label" := VStr "Item One"]>
               (<["All" := VNum 3.2]>
               (<["All_ci" := VArr [VNum 3.0; VNum 3.4]]>
               (<["All_n" := VNum 150]>
               (<["All_sd" := VNum 0.8]> ∅))))))
              ObjectPrototype].
Proof.
  apply (recompute_groups_of_filtered [scenarioRecord] scenarioMetadata
           "Overall" "items").
Defined.

(** C7, counterexample: in the items view the group list still has the
    group of the scale record, which the item subset does not have. *)
Lemma recompute_groups_of_filtered_counterexample :
  App {| summaries := viewData; metadata := Some viewMetadata;
         selectedDemographic := "Overall"; selectedView := "items";
         loading := false; error := VNull |}
  = ViewDashboard ["All"; "Other"] [pivotRow [viewItem] "i1"]
  ∧ spread (new_Set (group <$>
              itemData (filteredData viewData "Overall") viewMetadata))
    = ["All"].
Proof. split; vm_compute; reflexivity. Qed.

(** C8, witness: label and item of the scenario row. *)
Lemma pivot_item_and_label_witness :
  own (pivotRow [scenarioRecord] "i1") !! "item" = Some (VStr "i1")
  ∧ own (pivotRow [scenarioRecord] "i1") !! "label" = Some (VStr "Item One").
Proof.
  apply (pivot_item_and_label [scenarioRecord] "i1" _ scenarioRecord).
  - exact (rowOf_exists [scenarioRecord] scenarioRecord
             ltac:(apply list_elem_of_here)).
  - reflexivity.
  - compute_done.
Defined.

(** C8, counterexample: the first record of "a" has the empty label and a
    group spelled "item"; the row's [item] is that group's mean and its
    [label] is the item key, not the empty label. *)
Lemma pivot_item_and_label_counterexample :
  prepareChartData [groupNamedItem] = [pivotRow [groupNamedItem] "a"]
  ∧ head (filter (λ d, item d = "a") [groupNamedItem]) = Some groupNamedItem
  ∧ item_label groupNamedItem = VStr ""
  ∧ own (pivotRow [groupNamedItem] "a") !! "item" = Some (VNum 1)
  ∧ own (pivotRow [groupNamedItem] "a") !! "label" = Some (VStr "a").
Proof. split_and!; vm_compute; reflexivity. Qed.

(** C10, witness: an empty label falls back to the item key. *)
Lemma pivot_label_fallback_falsy_witness :
  own (pivotRow [emptyLabelRecord] "a") !! "label" = Some (VStr "a").
Proof.
  apply (pivot_label_fallback_falsy [emptyLabelRecord] "a" _
           emptyLabelRecord).
  - exact (rowOf_exists [emptyLabelRecord] emptyLabelRecord
             ltac:(apply list_elem_of_here)).
  - reflexivity.
  - reflexivity.
  - compute_done.
Defined.

(** C10, counterexample: the label is empty, but a group spelled "label"
    overwrites the fallback with its mean. *)
Lemma pivot_label_fallback_falsy_counterexample :
  prepareChartData [groupNamedLabel] = [pivotRow [groupNamedLabel] "a"]
  ∧ head (filter (λ d, item d = "a") [groupNamedLabel]) = Some groupNamedLabel
  ∧ item_label groupNamedLabel = VStr ""
  ∧ own (pivotRow [groupNamedLabel] "a") !! "label" = Some (VNum 2.5).
Proof. split_and!; vm_compute; reflexivity. Qed.

(** C9, witness: the metadata read is rejected after the summaries read
    was fulfilled. *)
Lemma load_all_or_nothing_witness :
  Forall (λ st, summaries st = [] ∧ metadata st = None
                ∧ (App st = ViewLoading
                   ∨ App st = ViewError (VStr loadFailedMessage)))
         (loadStates (Fulfilled [scenarioRecord]) Rejected)
  ∧ ∃ st, last (loadStates (Fulfilled [scenarioRecord]) Rejected) = Some st
          ∧ loading st = false
          ∧ App st = ViewError (VStr loadFailedMessage).
Proof.
  apply (load_all_or_nothing (Fulfilled [scenarioRecord]) Rejected).
  by right.
Defined.

(** * Further properties of the render body *)

(** ** The distinct lists *)

Section JsSetMore.
Context {A : Type} `{EqDecision A}.
Implicit Types (xs ys s : list A) (x y : A).

Lemma foldl_Set_add_prefix s ys : s `prefix_of` foldl Set_add s ys.
Proof.
  revert s. induction ys as [|y ys IH]; intros s; simpl; [done |].
  etrans; [| apply IH]. unfold Set_add. case_decide; [done |].
  by apply prefix_app_r.
Qed.

Lemma Set_add_fresh s x : x ∉ s → Set_add s x = (s ++ [x])%list.
Proof. intros Hx. unfold Set_add. by case_decide. Qed.

Lemma Set_add_known s x : x ∈ s → Set_add s x = s.
Proof. intros Hx. unfold Set_add. by case_decide. Qed.

Lemma new_Set_NoDup_id xs : NoDup xs → new_Set xs = xs.
Proof.
  induction xs as [|x xs IH] using rev_ind; [done |].
  intros (Hxs & Hdisj & _)%NoDup_app. rewrite new_Set_snoc, IH by done.
  apply Set_add_fresh. intros Hx. apply (Hdisj x Hx), list_elem_of_here.
Qed.

Lemma new_Set_length xs : (length (new_Set xs) ≤ length xs)%nat.
Proof.
  induction xs as [|x xs IH] using rev_ind; [done |].
  rewrite new_Set_snoc, length_app. unfold Set_add.
  case_decide; rewrite ?length_app; simpl; lia.
Qed.

(** Elements that are all new come after the old ones, as a set of their
    own. *)
Lemma new_Set_app_fresh xs ys :
  Forall (λ y, y ∉ xs) ys →
  new_Set (xs ++ ys)%list = (new_Set xs ++ new_Set ys)%list.
Proof.
  induction ys as [|y ys IH] using rev_ind; intros Hall.
  - by rewrite !app_nil_r.
  - apply Forall_app in Hall as [Hall Hy]. rewrite Forall_singleton in Hy.
    rewrite app_assoc, !new_Set_snoc, IH by done.
    destruct (decide (y ∈ new_Set ys)) as [Hin | Hout].
    + rewrite !Set_add_known; [done | done |].
      apply elem_of_app. by right.
    + rewrite !Set_add_fresh; [by rewrite app_assoc | done |].
      rewrite elem_of_app, elem_of_new_Set. tauto.
Qed.

(** Elements that are all known change nothing. *)
Lemma new_Set_app_known xs ys :
  Forall (λ y, y ∈ xs) ys → new_Set (xs ++ ys)%list = new_Set xs.
Proof.
  induction ys as [|y ys IH] using rev_ind; intros Hall.
  - by rewrite app_nil_r.
  - apply Forall_app in Hall as [Hall Hy]. rewrite Forall_singleton in Hy.
    rewrite app_assoc, new_Set_snoc, IH by done.
    apply Set_add_known. by apply elem_of_new_Set.
Qed.
End JsSetMore.

(** X7.  Group discovery has at most as many groups as the subset has
    records; it returns the groups of the records unchanged when they are
    already distinct; and records appended to the subset whose groups are
    all known leave the result as it is. *)
Theorem groups_of_distinct_and_repeated (subset more : list SummaryRecord) :
  (length (groups subset) ≤ length subset)%nat
  ∧ (NoDup (group <$> subset) → groups subset = group <$> subset)
  ∧ (Forall (λ d, ∃ d', d' ∈ subset ∧ group d' = group d) more →
     groups (subset ++ more)%list = groups subset).
Proof.
  unfold groups, spread. split_and!.
  - etrans; [apply new_Set_length |]. by rewrite length_fmap.
  - apply new_Set_NoDup_id.
  - intros Hall. rewrite fmap_app. apply new_Set_app_known.
    apply Forall_fmap. eapply Forall_impl; [exact Hall |].
    intros d (d' & Hd' & Hg). simpl. apply elem_of_field. eauto.
Qed.

(** ** What a pivoted row holds *)

Lemma pivotRow_initial_keys (data : list SummaryRecord) (it k : string) :
  k ≠ "item" → k ≠ "label" →
  Forall (λ d, item d = it → k ∉ groupKeys (group d)) data →
  own (pivotRow data it) !! k = None.
Proof.
  intros Hitem Hlabel Hall. unfold pivotRow.
  rewrite foldl_writeGroup_other by by apply Forall_filter_impl.
  simpl. by rewrite !lookup_insert_ne, lookup_empty.
Qed.

(** X1.  A pivoted row always has the keys [item] and [label], and beyond
    those two it has no key but the four keys of the groups of the item's
    records. *)
Theorem pivot_row_keys (data : list SummaryRecord) (it : string) :
  is_Some (own (pivotRow data it) !! "item")
  ∧ is_Some (own (pivotRow data it) !! "label")
  ∧ (∀ k, is_Some (own (pivotRow data it) !! k) →
       k = "item" ∨ k = "label"
       ∨ ∃ d, d ∈ data ∧ item d = it ∧ k ∈ groupKeys (group d)).
Proof.
  split_and!.
  - unfold pivotRow. apply foldl_writeGroup_mono. simpl.
    rewrite lookup_insert_ne, lookup_insert_eq by done. by eexists.
  - unfold pivotRow. apply foldl_writeGroup_mono. simpl.
    rewrite lookup_insert_eq. by eexists.
  - intros k Hk.
    destruct (decide (k = "item")) as [| Hitem]; [by left |].
    destruct (decide (k = "label")) as [| Hlabel]; [by right; left |].
    right; right.
    destruct (decide (Exists (λ d, item d = it ∧ k ∈ groupKeys (group d))
                             data)) as [Hex | Hnone].
    + apply Exists_exists in Hex as (d & Hd & Hi & Hkeys). eauto.
    + exfalso. apply not_Exists_Forall in Hnone; [| apply _].
      rewrite pivotRow_initial_keys in Hk; [by destruct Hk | done | done |].
      eapply Forall_impl; [exact Hnone |]. simpl. tauto.
Qed.

Lemma proto_assign_ne (o : object) (k : string) (v : value) :
  k ≠ "__proto__" → proto (assign o k v) = proto o.
Proof. intros Hk. unfold assign. case_decide as H; [by destruct H | done]. Qed.

Lemma proto_assign (o : object) (k : string) (v : value) :
  proto (assign o k v) = proto o
  ∨ (k = "__proto__"
     ∧ ((v = VNull ∧ proto (assign o k v) = NullPrototype)
        ∨ proto (assign o k v) = ValuePrototype v)).
Proof.
  unfold assign. case_decide as H; [| by left].
  destruct H as (-> & _). destruct v; simpl; auto.
Qed.

Lemma proto_writeGroup (row : object) (r : SummaryRecord) :
  proto (writeGroup row r) = proto row
  ∨ (group r = "__proto__"
     ∧ ((mean r = VNull ∧ proto (writeGroup row r) = NullPrototype)
        ∨ proto (writeGroup row r) = ValuePrototype (mean r))).
Proof.
  unfold writeGroup. rewrite !proto_assign_ne by last_char.
  apply proto_assign.
Qed.

Lemma proto_foldl_writeGroup (row : object) (rows : list SummaryRecord) :
  proto (foldl writeGroup row rows) = proto row
  ∨ ∃ r, r ∈ rows ∧ group r = "__proto__"
         ∧ ((mean r = VNull
             ∧ proto (foldl writeGroup row rows) = NullPrototype)
            ∨ proto (foldl writeGroup row rows) = ValuePrototype (mean r)).
Proof.
  induction rows as [|r rows IH] using rev_ind; [by left |].
  rewrite foldl_snoc.
  destruct (proto_writeGroup (foldl writeGroup row rows) r)
    as [-> | (Hg & Hp)].
  - destruct IH as [| (r' & Hr' & IH)]; [by left |].
    right. exists r'. split; [| done]. apply elem_of_app. by left.
  - right. exists r. split; [| done].
    apply elem_of_app. right. apply list_elem_of_here.
Qed.

Lemma pivotRow_proto_cases (data : list SummaryRecord) (it : string) :
  proto (pivotRow data it) = ObjectPrototype
  ∨ ∃ d, d ∈ data ∧ item d = it ∧ group d = "__proto__"
         ∧ ((mean d = VNull ∧ proto (pivotRow data it) = NullPrototype)
            ∨ proto (pivotRow data it) = ValuePrototype (mean d)).
Proof.
  unfold pivotRow.
  destruct (proto_foldl_writeGroup
              (Object (<["label" :=
                         js_or (firstLabel (filter (λ d, item d = it) data))
                               (VStr it)]>
                       (<["item" := VStr it]> ∅)) ObjectPrototype)
              (filter (λ d, item d = it) data))
    as [Hsame | (r & [Hi Hr]%list_elem_of_filter & Hg & Hp)].
  - by left.
  - right. by exists r.
Qed.

Lemma pivotRow_proto_default (data : list SummaryRecord) (it : string) :
  Forall (λ d, item d = it → group d ≠ "__proto__") data →
  proto (pivotRow data it) = ObjectPrototype.
Proof.
  intros Hall.
  destruct (pivotRow_proto_cases data it) as [| (d & Hd & Hi & Hg & _)];
    [done |].
  rewrite Forall_forall in Hall. by destruct (Hall d Hd Hi).
Qed.

(** X2.  The prototype of a pivoted row is [Object.prototype], unless a
    record of the item has the group ["__proto__"]: then it can be [null]
    (that record's mean being [null]) or that record's mean, and nothing
    else. *)
Theorem pivot_row_prototype (data : list SummaryRecord) (it : string) :
  (proto (pivotRow data it) = ObjectPrototype
   ∨ ∃ d, d ∈ data ∧ item d = it ∧ group d = "__proto__"
          ∧ ((mean d = VNull ∧ proto (pivotRow data it) = NullPrototype)
             ∨ proto (pivotRow data it) = ValuePrototype (mean d)))
  ∧ (Forall (λ d, item d = it → group d ≠ "__proto__") data →
     proto (pivotRow data it) = ObjectPrototype).
Proof.
  split; [apply pivotRow_proto_cases | apply pivotRow_proto_default].
Qed.

(** ** Records appended to the input *)

Lemma filter_app_none (P : SummaryRecord → Prop) `{!∀ d, Decision (P d)}
    (l more : list SummaryRecord) :
  Forall (λ d, ¬ P d) more → filter P (l ++ more)%list = filter P l.
Proof.
  intros Hall. rewrite filter_app.
  assert (filter P more = []) as ->; [| by rewrite app_nil_r].
  induction Hall as [|d more Hd _ IH]; [done |].
  by rewrite filter_cons_False.
Qed.

Lemma filter_app_all_new (P : SummaryRecord → Prop) `{!∀ d, Decision (P d)}
    (l more : list SummaryRecord) :
  Forall (λ d, ¬ P d) l → filter P (l ++ more)%list = filter P more.
Proof.
  intros Hall. rewrite filter_app.
  assert (filter P l = []) as ->; [| done].
  induction Hall as [|d l Hd _ IH]; [done |].
  by rewrite filter_cons_False.
Qed.

(** X3.  Appending records keeps the rows that were there in their places:
    the distinct items of the longer input start with those of the shorter
    one, and the row of an item that the appended records do not mention is
    unchanged.  When the appended records are all of new items, the pivot
    of the whole is the pivot of the old records followed by the pivot of
    the new ones. *)
Theorem pivot_append (data more : list SummaryRecord) :
  spread (new_Set (item <$> data))
    `prefix_of` spread (new_Set (item <$> (data ++ more)%list))
  ∧ (∀ it, Forall (λ d, item d ≠ it) more →
       pivotRow (data ++ more)%list it = pivotRow data it)
  ∧ (Forall (λ d, ∀ d', d' ∈ data → item d' ≠ item d) more →
     prepareChartData (data ++ more)%list
     = (prepareChartData data ++ prepareChartData more)%list).
Proof.
  split_and!.
  - unfold spread, new_Set. rewrite fmap_app, foldl_app.
    apply foldl_Set_add_prefix.
  - intros it Hall. unfold pivotRow. by rewrite filter_app_none.
  - intros Hnew. unfold prepareChartData, spread.
    rewrite fmap_app, new_Set_app_fresh.
    + rewrite fmap_app. f_equal.
      * apply list_fmap_ext. intros idx it Hit%list_elem_of_lookup_2.
        apply elem_of_new_Set, elem_of_field in Hit as (d' & Hd' & <-).
        unfold pivotRow. rewrite filter_app_none; [done |].
        eapply Forall_impl; [exact Hnew |]. intros d Hd Heq.
        by apply (Hd d' Hd').
      * apply list_fmap_ext. intros idx it Hit%list_elem_of_lookup_2.
        apply elem_of_new_Set, elem_of_field in Hit as (d & Hd & <-).
        unfold pivotRow. rewrite filter_app_all_new; [done |].
        apply Forall_forall. intros d' Hd'.
        rewrite Forall_forall in Hnew. by apply Hnew.
    + apply Forall_fmap. eapply Forall_impl; [exact Hnew |].
      intros d Hd [d' [Hd' Heq]]%elem_of_field. by apply (Hd d' Hd').
Qed.

(** ** The stages composed *)

Lemma filteredData_none (records : list SummaryRecord) (k : string) :
  Forall (λ d, demographic d ≠ k) records → filteredData records k = [].
Proof.
  intros Hall. induction Hall as [|d l Hd _ IH]; [done |].
  unfold filteredData in *. by rewrite filter_cons_False.
Qed.

(** X4.  A demographic key that no record has gives an empty dashboard, not
    an error: no group and no row, in either view. *)
Theorem empty_selection (records : list SummaryRecord) (md : Metadata)
    (k v : string) :
  Forall (λ d, demographic d ≠ k) records →
  App {| summaries := records; metadata := Some md;
         selectedDemographic := k; selectedView := v;
         loading := false; error := VNull |}
  = ViewDashboard [] [].
Proof.
  intros Hall. unfold App. simpl. rewrite filteredData_none by done.
  unfold chartData. by case_decide.
Qed.

Lemma empty_selection_witness :
  App {| summaries := [sparseMale; sparseFemale];
         metadata := Some scenarioMetadata;
         selectedDemographic := "Overall"; selectedView := "scales";
         loading := false; error := VNull |}
  = ViewDashboard [] [].
Proof.
  apply (empty_selection [sparseMale; sparseFemale] scenarioMetadata
           "Overall" "scales").
  compute_done.
Defined.

(** X5.  The chart rows are the pivot of the selected category's subset,
    and there is a row for an item exactly when some record has the
    selected demographic and that item, and the item is in the category
    list of the view: [score_types.items] for the view "items",
    [score_types.scales] for any other view. *)
Theorem chart_rows_are_classified (records : list SummaryRecord)
    (md : Metadata) (k v it : string) :
  let selected :=
    if decide (v = "items") then itemData (filteredData records k) md
    else scaleData (filteredData records k) md in
  let category :=
    if decide (v = "items") then items (score_types md)
    else scales (score_types md) in
  chartData (filteredData records k) md v = prepareChartData selected
  ∧ ((∃ row, rowOf selected it row)
     ↔ ∃ d, d ∈ records ∧ demographic d = k ∧ item d = it ∧ it ∈ category).
Proof.
  cbv zeta. split; [unfold chartData; by case_decide |]. split.
  - intros (row & (d & Hd & Hi)%rowOf_item_in). exists d.
    case_decide; unfold itemData, scaleData, filteredData in Hd;
      apply list_elem_of_filter in Hd as [Hc Hd];
      apply list_elem_of_filter in Hd as [Hk Hd]; subst it; done.
  - intros (d & Hd & Hk & <- & Hc). eexists. apply rowOf_exists.
    case_decide; unfold itemData, scaleData, filteredData;
      apply list_elem_of_filter; (split; [done |]);
      by apply list_elem_of_filter.
Qed.

(** X6.  The demographic filter and the category filters commute, and
    filtering twice by demographic keeps the records of the first key when
    the keys are equal and no record when they differ. *)
Theorem filters_compose (records : list SummaryRecord) (md : Metadata)
    (k k' : string) :
  itemData (filteredData records k) md = filteredData (itemData records md) k
  ∧ scaleData (filteredData records k) md
    = filteredData (scaleData records md) k
  ∧ filteredData (filteredData records k) k = filteredData records k
  ∧ (k ≠ k' → filteredData (filteredData records k) k' = []).
Proof.
  unfold itemData, scaleData, filteredData. split_and!.
  - rewrite !list_filter_filter. apply list_filter_iff. tauto.
  - rewrite !list_filter_filter. apply list_filter_iff. tauto.
  - rewrite list_filter_filter. apply list_filter_iff. tauto.
  - intros Hne. apply (filteredData_none _ k'), Forall_forall.
    intros d [Hk _]%list_elem_of_filter. congruence.
Qed.

(** ** The order of the records *)

Lemma writeGroup_own_key (x y : object) (r : SummaryRecord) (k : string) :
  k ∈ groupKeys (group r) → group r ≠ "__proto__" →
  own (writeGroup x r) !! k = own (writeGroup y r) !! k.
Proof.
  unfold groupKeys, companions. rewrite !elem_of_cons, elem_of_nil.
  intros [-> | [-> | [-> | [-> | []]]]] Hp.
  - by rewrite !writeGroup_mean.
  - by rewrite !writeGroup_ci.
  - by rewrite !writeGroup_n.
  - by rewrite !writeGroup_sd.
Qed.

(** With one record per group and no clash, the keys of a record hold what
    that record wrote, wherever it stands among the rows. *)
Lemma foldl_writeGroup_unique (row : object) (rows : list SummaryRecord)
    (r : SummaryRecord) (k : string) :
  NoDup (group <$> rows) →
  (∀ r1 r2, r1 ∈ rows → r2 ∈ rows → ¬ clash (group r1) (group r2)) →
  r ∈ rows → group r ≠ "__proto__" → k ∈ groupKeys (group r) →
  own (foldl writeGroup row rows) !! k = own (writeGroup row r) !! k.
Proof.
  intros Hnd Hcl Hr Hp Hk.
  apply list_elem_of_split in Hr as (l1 & l2 & ->).
  rewrite foldl_app. simpl. rewrite foldl_writeGroup_other.
  - by apply writeGroup_own_key.
  - apply Forall_forall. intros r2 Hr2.
    apply (groupKeys_apart (group r)); [| | done].
    + rewrite fmap_app, fmap_cons in Hnd.
      apply NoDup_app in Hnd as (_ & _ & Hnd).
      apply NoDup_cons in Hnd as [Hnotin _].
      intros Heq. apply Hnotin. rewrite Heq. by apply list_elem_of_fmap_2.
    + apply Hcl; apply elem_of_app; right;
        [apply list_elem_of_here | by apply list_elem_of_further].
Qed.

(** X10.  When an item has one record per group, none of its groups
    clashes with another and none is spelled ["__proto__"], its row does
    not depend on the order of the records, but for the label, which is
    taken from the first record: two inputs with the same records give rows
    with the same prototype and the same value under every key other than
    [label], and the same row when the first record of the item has the
    same label in both. *)
Theorem pivot_order_independent (data1 data2 : list SummaryRecord)
    (it : string) :
  data1 ≡ₚ data2 →
  NoDup (group <$> filter (λ d, item d = it) data1) →
  (∀ d d', d ∈ data1 → d' ∈ data1 → item d = it → item d' = it →
     ¬ clash (group d) (group d')) →
  Forall (λ d, item d = it → group d ≠ "__proto__") data1 →
  (∀ k, k ≠ "label" →
     own (pivotRow data1 it) !! k = own (pivotRow data2 it) !! k)
  ∧ proto (pivotRow data1 it) = proto (pivotRow data2 it)
  ∧ (firstLabel (filter (λ d, item d = it) data1)
     = firstLabel (filter (λ d, item d = it) data2) →
     pivotRow data1 it = pivotRow data2 it).
Proof.
  intros Hperm Hnd Hcl Hp.
  assert (filter (λ d, item d = it) data1 ≡ₚ filter (λ d, item d = it) data2)
    as Hrows by by rewrite Hperm.
  assert (∀ k, k ≠ "label"
               ∨ firstLabel (filter (λ d, item d = it) data1)
                 = firstLabel (filter (λ d, item d = it) data2) →
               own (pivotRow data1 it) !! k = own (pivotRow data2 it) !! k)
    as Hown.
  { intros k Hk. unfold pivotRow.
    destruct (decide (Exists (λ r, k ∈ groupKeys (group r))
                             (filter (λ d, item d = it) data1)))
      as [Hex | Hnone].
    - apply Exists_exists in Hex as (r & Hr & Hkeys).
      assert (group r ≠ "__proto__") as Hpr.
      { apply list_elem_of_filter in Hr as [Hi Hr].
        rewrite Forall_forall in Hp. by apply Hp. }
      rewrite !(foldl_writeGroup_unique _ _ r k); try done.
      + by apply writeGroup_own_key.
      + by rewrite <- Hrows.
      + intros r1 r2 Hr1 Hr2. rewrite <- Hrows in Hr1, Hr2.
        apply list_elem_of_filter in Hr1 as [? ?].
        apply list_elem_of_filter in Hr2 as [? ?]. by apply Hcl.
      + by rewrite <- Hrows.
      + intros r1 r2 [? ?]%list_elem_of_filter [? ?]%list_elem_of_filter.
        by apply Hcl.
    - apply not_Exists_Forall in Hnone; [| apply _].
      rewrite !foldl_writeGroup_other; [| by rewrite <- Hrows | done].
      simpl. destruct (decide (k = "label")) as [-> | Hne].
      + destruct Hk as [| ->]; [done |]. by rewrite !lookup_insert_eq.
      + by rewrite !(lookup_insert_ne _ "label"). }
  assert (proto (pivotRow data1 it) = proto (pivotRow data2 it)) as Hproto.
  { rewrite (pivotRow_proto_default data1 it) by done.
    rewrite (pivotRow_proto_default data2 it); [done |].
    by rewrite <- Hperm. }
  split_and!; [auto | done |].
  intros Hlabel. destruct (pivotRow data1 it) as [own1 proto1] eqn:E1.
  destruct (pivotRow data2 it) as [own2 proto2] eqn:E2.
  simpl in *. f_equal; [| done]. apply map_eq. intros k. auto.
Qed.

Lemma pivot_order_independent_witness :
  pivotRow [warningFirst; warningSecond] "i1"
  = pivotRow [warningSecond; warningFirst] "i1".
Proof.
  apply (pivot_order_independent [warningFirst; warningSecond]
           [warningSecond; warningFirst] "i1").
  - apply Permutation_swap.
  - compute_done.
  - assert (Forall (λ d, Forall (λ d', item d = "i1" → item d' = "i1" →
                                       ¬ clash (group d) (group d'))
                            [warningFirst; warningSecond])
                   [warningFirst; warningSecond]) as Hall by compute_done.
    intros d d' Hd Hd'.
    exact (proj1 (Forall_forall _ _)
             (proj1 (Forall_forall _ _) Hall d Hd) d' Hd').
  - compute_done.
  - reflexivity.
Defined.

(** ** The bar colours *)

(** X8.  Every group position has a fill colour, and two positions have
    the same colour exactly when they differ by a multiple of eight: the
    first eight groups have colours of their own, the ninth repeats the
    first. *)
Theorem fill_cycles_through_COLORS (i j : nat) :
  is_Some (fill i) ∧ (fill i = fill j ↔ i mod 8 = j mod 8).
Proof.
  unfold fill. change (length COLORS) with 8%nat.
  assert (∀ m : nat, (m mod 8 < length COLORS)%nat) as Hlt.
  { intros m. change (length COLORS) with 8%nat. apply Nat.mod_upper_bound.
    lia. }
  split; [by apply lookup_lt_is_Some |]. split; [| by intros ->].
  destruct (lookup_lt_is_Some_2 _ _ (Hlt i)) as [c Hc]. rewrite Hc.
  intros Hj. symmetry in Hj.
  assert (NoDup COLORS) as Hnd by compute_done.
  exact (NoDup_lookup _ _ _ _ Hnd Hc Hj).
Qed.

(** ** The small-sample note *)

Lemma head_filter_group (filtered : list SummaryRecord) (g : string)
    (first : SummaryRecord) :
  head (filter (λ d, group d = g) filtered) = Some first →
  first ∈ filtered ∧ group first = g.
Proof.
  intros [Hg Hin]%head_Some_elem_of%list_elem_of_filter. done.
Qed.

(** X9.  Each discovered group has a first record in the subset it was
    discovered in, so the length guard of the warning never decides; the
    warning is on exactly when the first record of some group has a sample
    size below thirty.  Records after the first of their group are not
    looked at. *)
Theorem small_sample_warning_first_records (ToNumberOfText : value → float)
    (filtered : list SummaryRecord) :
  (∀ g, g ∈ groups filtered →
     ∃ first, filter (λ d, group d = g) filtered !! 0 = Some first
              ∧ first ∈ filtered ∧ group first = g)
  ∧ (smallSampleWarning ToNumberOfText filtered = true
     ↔ ∃ first,
         head (filter (λ d, group d = group first) filtered) = Some first
         ∧ lessThan ToNumberOfText (n first) 30 = true).
Proof.
  assert (∀ g, g ∈ groups filtered →
     ∃ first, filter (λ d, group d = g) filtered !! 0 = Some first
              ∧ first ∈ filtered ∧ group first = g) as Hfirst.
  { intros g. unfold groups, spread.
    rewrite elem_of_new_Set, elem_of_field. intros (r & Hr & Hg).
    assert (r ∈ filter (λ d, group d = g) filtered) as Hin
      by by apply list_elem_of_filter.
    destruct (filter (λ d, group d = g) filtered) as [|first rest] eqn:E.
    - by apply elem_of_nil in Hin.
    - exists first. split; [done |].
      apply (head_filter_group filtered g). by rewrite E. }
  split; [exact Hfirst |].
  unfold smallSampleWarning. rewrite existsb_exists. split.
  - intros (g & Hg%list_elem_of_In & Hsmall).
    destruct (Hfirst g Hg) as (first & Hlookup & Hin & Hgroup).
    exists first. unfold smallGroup in Hsmall. rewrite Hlookup in Hsmall.
    rewrite Hgroup, head_lookup. split; [done |].
    by case_bool_decide.
  - intros (first & Hhead & Hsmall).
    destruct (head_filter_group _ _ _ Hhead) as [Hin _].
    exists (group first). split.
    + apply list_elem_of_In. unfold groups, spread.
      apply elem_of_new_Set, elem_of_field. eauto.
    + unfold smallGroup. rewrite <- head_lookup, Hhead.
      rewrite bool_decide_eq_true_2; [done |].
      apply head_Some in Hhead as [rest ->]. simpl. lia.
Qed.

(** X9 on two inputs: a small first record of Female turns the warning
    on; a small second record of Male does not. *)
Lemma small_sample_warning_first_records_witness :
  smallSampleWarning (λ _, PrimFloat.nan) [warningFirst; warningSecond] = true.
Proof.
  apply (small_sample_warning_first_records (λ _, PrimFloat.nan)
           [warningFirst; warningSecond]).
  exists warningSecond. split; reflexivity.
Defined.

Example small_sample_not_seen :
  smallSampleWarning (λ _, PrimFloat.nan) [warningFirst; warningThird] = false.
Proof. reflexivity. Qed.

(** ** The controls *)



(** ** The keys of the table rows *)

(** X12.  The table rows are keyed by [row.item] (line 240): unless a group
    is spelled "item", these keys are the distinct item keys, so no two
    rows have the same key. *)
Theorem table_row_keys_distinct (data : list SummaryRecord) :
  Forall (λ d, group d ≠ "item") data →
  NoDup ((λ row, own row !! "item") <$> prepareChartData data)
  ∧ ∀ row, row ∈ prepareChartData data →
           ∃ d, d ∈ data ∧ own row !! "item" = Some (VStr (item d)).
Proof.
  intros Hall.
  assert (∀ it, own (pivotRow data it) !! "item" = Some (VStr it)) as Hitem.
  { intros it. apply pivotRow_item. eapply Forall_impl; [exact Hall |]. auto. }
  unfold prepareChartData, spread. split.
  - rewrite <- list_fmap_compose.
    apply (NoDup_fmap_2_strong _ (new_Set (item <$> data)));
      [| apply NoDup_new_Set].
    intros it it' _ _. simpl. rewrite !Hitem. by intros [= ->].
  - intros row (it & -> & Hit)%list_elem_of_fmap.
    apply elem_of_new_Set, elem_of_field in Hit as (d & Hd & <-).
    exists d. by rewrite Hitem.
Qed.

Lemma table_row_keys_distinct_witness :
  NoDup ((λ row, own row !! "item") <$> prepareChartData sparseData).
Proof.
  apply (table_row_keys_distinct sparseData). compute_done.
Defined.
